(** * apply_patch.py: prepending a text block to source files, idempotently

    A shallow embedding of [src/apply_patch.py] and the properties of its
    two functions, [apply_patch] and [main].

    - Python [str] values are lists of code points.
    - The file system and standard output are an explicit [world] that is
      threaded through a state-and-exception monad [M]; [try]/[except] is a
      combinator of that monad.
    - The module-level table [PATCHES] is passed to [main] explicitly. *)

From Stdlib Require Import ZArith NArith Ascii String Decimal.
From stdpp Require Import gmap list.

Local Open Scope N_scope.

(** ** Python strings *)

(** A [str] is a sequence of code points. *)
Abbreviation str := (list N).

(** An ASCII literal of the source, as a [str]. *)
Fixpoint lit (s : string) : str :=
  match s with
  | EmptyString => []
  | String a s' => N_of_ascii a :: lit s'
  end.

(** The newline character, written [\n] in the source. *)
Definition NL : N := 10.

(** The characters [str.strip()] removes: those for which [str.isspace()]
    holds (CPython's [_PyUnicode_IsWhitespace]). *)
Definition isspace (c : N) : bool :=
  ((9 <=? c) && (c <=? 13)) || ((28 <=? c) && (c <=? 32))
  || (c =? 133) || (c =? 160) || (c =? 5760)
  || ((8192 <=? c) && (c <=? 8202))
  || (c =? 8232) || (c =? 8233) || (c =? 8239) || (c =? 8287)
  || (c =? 12288).

(** [s.lstrip()]: drop the leading whitespace. *)
Fixpoint lstrip (s : str) : str :=
  match s with
  | [] => []
  | c :: s' => if isspace c then lstrip s' else s
  end.

(** [s.rstrip()]: drop the trailing whitespace. *)
Definition rstrip (s : str) : str := reverse (lstrip (reverse s)).

(** [s.strip()] *)
Definition strip (s : str) : str := rstrip (lstrip s).

(** [s.startswith(prefix)] *)
Fixpoint startswith (s prefix : str) {struct prefix} : bool :=
  match prefix, s with
  | [], _ => true
  | _ :: _, [] => false
  | c :: prefix', d :: s' => (c =? d) && startswith s' prefix'
  end.

(** Decimal digits, as [format] prints an [int]. *)
Fixpoint digits (d : Decimal.uint) : str :=
  match d with
  | Nil => []
  | D0 d' => 48 :: digits d'
  | D1 d' => 49 :: digits d'
  | D2 d' => 50 :: digits d'
  | D3 d' => 51 :: digits d'
  | D4 d' => 52 :: digits d'
  | D5 d' => 53 :: digits d'
  | D6 d' => 54 :: digits d'
  | D7 d' => 55 :: digits d'
  | D8 d' => 56 :: digits d'
  | D9 d' => 57 :: digits d'
  end.

(** [f"{n}"] for a non-negative [int]. *)
Definition str_of_nat (n : nat) : str := digits (Nat.to_uint n).

Local Close Scope N_scope.

(** ** Exceptions *)

(** The exceptions of this program: those the file operations raise, which
    are subclasses of [Exception], and [SystemExit], which is not. Each
    carries what [str(e)] prints. *)
Inductive exn :=
| OSError (msg : str)
| UnicodeDecodeError (msg : str)
| SystemExit (code : Z).

(** [isinstance(e, Exception)] *)
Definition is_Exception (e : exn) : bool :=
  match e with
  | OSError _ | UnicodeDecodeError _ => true
  | SystemExit _ => false
  end.

(** [f"{i}"] for an [int]. *)
Definition str_of_int (i : Z) : str :=
  if (i <? 0)%Z then 45%N :: str_of_nat (Z.to_nat (- i)) else str_of_nat (Z.to_nat i).

(** [str(e)], as the handler of [apply_patch] prints it. *)
Definition str_of_exn (e : exn) : str :=
  match e with
  | OSError msg | UnicodeDecodeError msg => msg
  | SystemExit code => str_of_int code
  end.

(** The outcome of a call: a value, or a raised exception. *)
Inductive result (A : Type) :=
| Ret (a : A)
| Raise (e : exn).
Arguments Ret {A} a.
Arguments Raise {A} e.

(** ** The file system and standard output *)

(** What a file holds: bytes that decode as UTF-8 to a text, or bytes that
    do not (with the message of the decoding error). Contents are kept as
    the text that [read_text] returns for them. *)
Inductive stored :=
| Text (s : str)
| Undecodable (msg : str).

(** An existing path. Besides its contents it tells how opening and
    writing it fail, if they do: [node_ropen] and [node_wopen] hold the
    message of the [OSError] that opening for reading, or for writing,
    raises (permission denied, a directory, ...); [node_wfail] holds the
    message of the [OSError] that the write raises after the file was opened
    and truncated, and how many characters reached the file before it. *)
Record node := Node {
  node_data : stored;
  node_ropen : option str;
  node_wopen : option str;
  node_wfail : option (str * nat)
}.

(** The state the program acts on: the files by path, the lines printed so
    far (oldest first), and the calls of [write_text] made so far. *)
Record world := World {
  fs : gmap str node;
  stdout : list str;
  writes : list (str * str)
}.

(** ** The monad of effects *)

Definition M (A : Type) : Type := world -> result A * world.

#[global] Instance M_ret : MRet M := fun A a w => (Ret a, w).

#[global] Instance M_bind : MBind M := fun A B k m w =>
  match m w with
  | (Ret a, w') => k a w'
  | (Raise e, w') => (Raise e, w')
  end.

Definition raise {A : Type} (e : exn) : M A := fun w => (Raise e, w).

(** [try: body except Exception as e: handler]. A [return] in either part
    is the value of that part. *)
Definition try_except_Exception {A : Type} (body : M A) (handler : exn -> M A) : M A :=
  fun w =>
    match body w with
    | (Ret a, w') => (Ret a, w')
    | (Raise e, w') => if is_Exception e then handler e w' else (Raise e, w')
    end.

(** [print(line)] *)
Definition print (line : str) : M unit := fun w =>
  (Ret tt, World (fs w) (stdout w ++ [line]) (writes w)).

(** [sys.exit(code)] *)
Definition sys_exit {A : Type} (code : Z) : M A := raise (SystemExit code).

(** [file_path.exists()] *)
Definition exists_ (file_path : str) : M bool := fun w =>
  (Ret (match fs w !! file_path with Some _ => true | None => false end), w).

(** [file_path.read_text(encoding="utf-8")] *)
Definition read_text (file_path : str) : M str := fun w =>
  match fs w !! file_path with
  | None =>
      (Raise (OSError (lit "[Errno 2] No such file or directory: '" ++ file_path ++ lit "'")), w)
  | Some nd =>
      match node_ropen nd with
      | Some msg => (Raise (OSError msg), w)
      | None =>
          match node_data nd with
          | Text s => (Ret s, w)
          | Undecodable msg => (Raise (UnicodeDecodeError msg), w)
          end
      end
  end.

(** The file after [data] has been written to it. *)
Definition with_data (nd : node) (data : str) : node :=
  Node (Text data) (node_ropen nd) (node_wopen nd) (node_wfail nd).

(** [file_path.write_text(data, encoding="utf-8")]: opens the file for
    writing, which creates or truncates it, and writes [data]. *)
Definition write_text (file_path data : str) : M unit := fun w =>
  let log := writes w ++ [(file_path, data)] in
  match fs w !! file_path with
  | None =>
      (Ret tt, World (<[file_path := Node (Text data) None None None]> (fs w)) (stdout w) log)
  | Some nd =>
      match node_wopen nd with
      | Some msg => (Raise (OSError msg), World (fs w) (stdout w) log)
      | None =>
          match node_wfail nd with
          | Some (msg, k) =>
              (Raise (OSError msg),
               World (<[file_path := with_data nd (take k data)]> (fs w)) (stdout w) log)
          | None =>
              (Ret tt, World (<[file_path := with_data nd data]> (fs w)) (stdout w) log)
          end
      end
  end.

(** The exit status of the process that ran [main]: 0 when it returns, the
    code of [SystemExit], 1 for any other exception that reaches the top. *)
Definition exit_status {A : Type} (r : result A) : Z :=
  match r with
  | Ret _ => 0%Z
  | Raise (SystemExit code) => code
  | Raise _ => 1%Z
  end.

(** What a call returns or raises, and the world it leaves. *)
Definition returns {A : Type} (m : M A) (w : world) : result A := (m w).1.
Definition after {A : Type} (m : M A) (w : world) : world := (m w).2.

(** The table of the source: the file to patch and the text to prepend. *)
Definition PATCHES : list (str * str) :=
  [ (lit "libs/odpi/test/test_4500_sessionless_txn.c",
     lit "#ifdef _WIN32" ++ [NL]
     ++ lit "    #include <windows.h>" ++ [NL]
     ++ lit "    #define sleep(s) Sleep((s) * 1000)" ++ [NL]
     ++ lit "#else" ++ [NL]
     ++ lit "    #include <unistd.h>" ++ [NL]
     ++ lit "#endif");
    (lit "libs/odpi/samples/DemoBFILE.c",
     lit "#if defined(_WIN32)" ++ [NL]
     ++ lit "    #include <direct.h>" ++ [NL]
     ++ lit "    #define chdir _chdir" ++ [NL]
     ++ lit "#else" ++ [NL]
     ++ lit "    #include <unistd.h>" ++ [NL]
     ++ lit "#endif") ].

(** ** Worlds and inputs of the examples *)

(** The paths of the examples are in pathlib's normal form already. *)
Definition normal_path (s : str) : str := s.


(** One ordinary file. *)
Definition one_file (path content : str) : world :=
  World {[ path := Node (Text content) None None None ]} [] [].

(** One file that cannot be opened for writing. *)
Definition read_only_file (path content : str) : world :=
  World {[ path := Node (Text content) None
                     (Some (lit "[Errno 13] Permission denied")) None ]} [] [].


Definition main_c : str := lit "main.c".
Definition foo_include : str := lit "#include <foo.h>".
Definition main_body : str := lit "int main(){}" ++ [NL].

(** The two files of the table, and the patch of its [i]-th entry. *)
Definition txn_c : str := lit "libs/odpi/test/test_4500_sessionless_txn.c".
Definition bfile_c : str := lit "libs/odpi/samples/DemoBFILE.c".
Definition table_patch (i : nat) : str := (PATCHES !!! i).2.

(** One ordinary file with the given content. *)
Definition plain (content : str) : node := Node (Text content) None None None.


(** A source tree in which both files begin with their patch. *)
Definition patched_tree : world :=
  World (<[txn_c := plain (table_patch 0 ++ [NL; NL] ++ main_body)]>
           {[ bfile_c := plain (table_patch 1 ++ [NL; NL] ++ main_body) ]}) [] [].

(** ** The program *)

Section Program.

(** [str(Path(s))]: pathlib's normal form of a path string, which names the
    file and is what the messages show. *)
Variable Path : str -> str.

(** [apply_patch(file_path_str, patch_content)] *)
Definition apply_patch (file_path_str patch_content : str) : M bool :=
  let file_path := Path file_path_str in
  print (lit "--- Checking " ++ file_path ++ lit " ---");;
  found ← exists_ file_path;
  if negb found then
    print (lit "ERROR: File not found at " ++ file_path ++ lit ". Skipping.");;
    mret false
  else
    try_except_Exception
      (original_content ← read_text file_path;
       let normalized_patch := strip patch_content in
       if startswith original_content normalized_patch then
         print (lit "Patch already applied, skipping.");;
         mret true
       else
         print (lit "Applying patch...");;
         let new_content := normalized_patch ++ [NL; NL] ++ original_content in
         write_text file_path new_content;;
         print (lit "Successfully applied patch.");;
         mret true)
      (fun e =>
         print (lit "ERROR: Failed to patch file " ++ file_path ++ lit ": " ++ str_of_exn e);;
         mret false).

(** The loop of [main] over [PATCHES.items()], from a given
    [success_count]. *)
Fixpoint for_items (items : list (str * str)) (success_count : nat) : M nat :=
  match items with
  | [] => mret success_count
  | (path, content) :: items' =>
      ok ← apply_patch path content;
      for_items items' (if ok : bool then success_count + 1 else success_count)
  end.

(** The last line [main] prints. *)
Definition summary (success_count total_count : nat) : str :=
  lit "Patching process complete. " ++ str_of_nat success_count ++ lit "/"
    ++ str_of_nat total_count ++ lit " files checked/patched successfully.".

(** [main()], with the table it reads. *)
Definition main (PATCHES : list (str * str)) : M unit :=
  print (lit "Starting C source file patching process...");;
  let total_count := length PATCHES in
  success_count ← for_items PATCHES 0;
  print (lit "-----------------------------------------");;
  print (summary success_count total_count);;
  if negb (success_count =? total_count) then sys_exit 1%Z else mret tt.

(** What [apply_patch] returns for each entry of the table, in order, when
    the entries are processed one after the other from [w]. *)
Fixpoint outcomes (items : list (str * str)) (w : world) : list bool :=
  match items with
  | [] => []
  | (path, content) :: items' =>
      match apply_patch path content w with
      | (Ret ok, w') => ok :: outcomes items' w'
      | (Raise _, _) => []
      end
  end.

(** The number of entries that succeeded. *)
Definition successes (items : list (str * str)) (w : world) : nat :=
  length (filter (fun ok => ok = true) (outcomes items w)).

(** What a call of [apply_patch] with the stripped patch [np] leaves of the
    file it names: the file as it was when it cannot be read, already begins
    with [np], or cannot be opened for writing; otherwise the file with
    what the write put in it. *)
Definition patched (np : str) (nd : node) : node :=
  match node_ropen nd, node_data nd with
  | None, Text old =>
      if startswith old np then nd
      else
        match node_wopen nd, node_wfail nd with
        | Some _, _ => nd
        | None, Some (_, k) => with_data nd (take k (np ++ [NL; NL] ++ old))
        | None, None => with_data nd (np ++ [NL; NL] ++ old)
        end
  | _, _ => nd
  end.

(** The files that the entries of a table name. *)
Definition targets (items : list (str * str)) : list str :=
  (fun entry => Path entry.1) <$> items.


(** The entries of [items] are in place in [w]: every target can be read
    and begins with its stripped patch. *)
Definition in_place (items : list (str * str)) (w : world) : Prop :=
  ∀ p c, (p, c) ∈ items →
    ∃ old, returns (read_text (Path p)) w = Ret old
           ∧ startswith old (strip c) = true.

(** ** Strings: prefixes and stripping *)

Lemma startswith_app (p t : str) : startswith (p ++ t) p = true.
Proof.
  induction p as [|c p IH]; simpl; [done|].
  by rewrite N.eqb_refl, IH.
Qed.



Lemma startswith_nil (s : str) : startswith s [] = true.
Proof. by destruct s. Qed.



Lemma lstrip_split (s : str) :
  ∃ ws, s = ws ++ lstrip s ∧ forallb isspace ws = true.
Proof.
  induction s as [|c s (ws & Hs & Hws)]; simpl.
  - by exists [].
  - destruct (isspace c) eqn:Hc.
    + exists (c :: ws). simpl. rewrite Hc, Hws. split; [by f_equal|done].
    + by exists [].
Qed.

Lemma lstrip_head (s : str) (c : N) : head (lstrip s) = Some c → isspace c = false.
Proof.
  induction s as [|d s IH]; simpl; [done|].
  destruct (isspace d) eqn:Hd; [done|].
  simpl. by intros [= <-].
Qed.

Lemma lstrip_fixed (s : str) :
  (∀ c, head s = Some c → isspace c = false) → lstrip s = s.
Proof.
  destruct s as [|d s]; simpl; [done|].
  intros H. by rewrite (H d).
Qed.

Lemma rstrip_split (s : str) :
  ∃ ws, s = rstrip s ++ ws ∧ forallb isspace ws = true.
Proof.
  unfold rstrip. destruct (lstrip_split (reverse s)) as (ws & Hs & Hws).
  exists (reverse ws). split.
  - rewrite <- reverse_app, <- Hs. by rewrite reverse_involutive.
  - rewrite forallb_forall in *. intros c Hc. apply Hws.
    apply list_elem_of_In, elem_of_reverse, list_elem_of_In. done.
Qed.

Lemma rstrip_last (s : str) (c : N) : last (rstrip s) = Some c → isspace c = false.
Proof. unfold rstrip. rewrite last_reverse. apply lstrip_head. Qed.

(** Stripping on the right keeps the first character of what is left. *)
Lemma rstrip_head (s : str) (c : N) :
  head (rstrip s) = Some c → head s = Some c.
Proof.
  destruct (rstrip_split s) as (ws & Hs & _).
  intros H. rewrite Hs. by destruct (rstrip s).
Qed.

Lemma strip_split (s : str) :
  ∃ l r, s = l ++ strip s ++ r ∧ forallb isspace l = true ∧ forallb isspace r = true.
Proof.
  destruct (lstrip_split s) as (l & Hl & Hls).
  destruct (rstrip_split (lstrip s)) as (r & Hr & Hrs).
  exists l, r. unfold strip. by rewrite <- Hr.
Qed.

Lemma strip_head (s : str) (c : N) : head (strip s) = Some c → isspace c = false.
Proof. intros H. apply rstrip_head in H. by apply lstrip_head in H. Qed.

Lemma strip_last (s : str) (c : N) : last (strip s) = Some c → isspace c = false.
Proof. apply rstrip_last. Qed.

Lemma rstrip_fixed (s : str) :
  (∀ c, last s = Some c → isspace c = false) → rstrip s = s.
Proof.
  intros H. unfold rstrip. rewrite lstrip_fixed.
  - apply reverse_involutive.
  - intros c Hc. apply H. by rewrite <- head_reverse.
Qed.

Lemma strip_idempotent (s : str) : strip (strip s) = strip s.
Proof.
  unfold strip at 1. rewrite lstrip_fixed by apply strip_head.
  apply rstrip_fixed, strip_last.
Qed.

(** A string that begins with whitespace does not begin with a stripped,
    non-empty string. *)
Lemma startswith_space_strip (ws rest s : str) :
  ws ≠ [] → forallb isspace ws = true → strip s ≠ [] →
  startswith (ws ++ rest) (strip s) = false.
Proof.
  intros Hne Hws Hs.
  destruct ws as [|d ws]; [done|]. simpl in Hws.
  apply andb_true_iff in Hws as [Hd _].
  destruct (strip s) as [|c t] eqn:E; [done|].
  simpl. destruct (c =? d)%N eqn:Hcd; [|done].
  apply N.eqb_eq in Hcd as ->.
  rewrite (strip_head s d) in Hd; [done|]. by rewrite E.
Qed.

(** ** The branches of [apply_patch] *)

#[local] Arguments lit : simpl never.
#[local] Arguments strip : simpl never.
#[local] Arguments startswith : simpl never.

Ltac unfold_program :=
  unfold returns, after, apply_patch, try_except_Exception, read_text, write_text,
    exists_, print, sys_exit, raise, mbind, M_bind, mret, M_ret; cbn.

(** Follow the branch that the facts about the target select. *)
Ltac run_with H Hr Hd Hs :=
  do 4 (rewrite ?H, ?Hr, ?Hd, ?Hs; cbn).

(** The target does not exist. *)
Lemma apply_patch_missing (w : world) (p c : str) :
  fs w !! Path p = None →
  apply_patch p c w =
    (Ret false,
     World (fs w)
       ((stdout w ++ [lit "--- Checking " ++ Path p ++ lit " ---"])
          ++ [lit "ERROR: File not found at " ++ Path p ++ lit ". Skipping."])
       (writes w)).
Proof. intros H. unfold_program. by rewrite H. Qed.

(** Reading the target raises. *)
Lemma apply_patch_read_raises (w : world) (p c : str) (nd : node) (e : exn) :
  fs w !! Path p = Some nd →
  returns (read_text (Path p)) w = Raise e →
  apply_patch p c w =
    (Ret false,
     World (fs w)
       ((stdout w ++ [lit "--- Checking " ++ Path p ++ lit " ---"])
          ++ [lit "ERROR: Failed to patch file " ++ Path p ++ lit ": " ++ str_of_exn e])
       (writes w)).
Proof.
  intros H. unfold_program. rewrite H. cbn. rewrite H.
  destruct (node_ropen nd); cbn.
  - by intros [= <-].
  - destruct (node_data nd); cbn; [done|]. by intros [= <-].
Qed.

(** The target already begins with the stripped patch. *)
Lemma apply_patch_applied (w : world) (p c : str) (nd : node) (old : str) :
  fs w !! Path p = Some nd →
  node_ropen nd = None →
  node_data nd = Text old →
  startswith old (strip c) = true →
  apply_patch p c w =
    (Ret true,
     World (fs w)
       ((stdout w ++ [lit "--- Checking " ++ Path p ++ lit " ---"])
          ++ [lit "Patch already applied, skipping."])
       (writes w)).
Proof. intros H Hr Hd Hs. unfold_program. by run_with H Hr Hd Hs. Qed.

(** The target is rewritten. *)
Lemma apply_patch_written (w : world) (p c : str) (nd : node) (old : str) :
  fs w !! Path p = Some nd →
  node_ropen nd = None →
  node_data nd = Text old →
  startswith old (strip c) = false →
  node_wopen nd = None →
  node_wfail nd = None →
  apply_patch p c w =
    (Ret true,
     World (<[Path p := with_data nd (strip c ++ [NL; NL] ++ old)]> (fs w))
       (((stdout w ++ [lit "--- Checking " ++ Path p ++ lit " ---"])
           ++ [lit "Applying patch..."])
          ++ [lit "Successfully applied patch."])
       (writes w ++ [(Path p, strip c ++ [NL; NL] ++ old)])).
Proof.
  intros H Hr Hd Hs Hw Hf. unfold_program. run_with H Hr Hd Hs. by rewrite Hw, Hf.
Qed.

(** Opening the target for writing raises. *)
Lemma apply_patch_open_refused (w : world) (p c : str) (nd : node) (old msg : str) :
  fs w !! Path p = Some nd →
  node_ropen nd = None →
  node_data nd = Text old →
  startswith old (strip c) = false →
  node_wopen nd = Some msg →
  apply_patch p c w =
    (Ret false,
     World (fs w)
       (((stdout w ++ [lit "--- Checking " ++ Path p ++ lit " ---"])
           ++ [lit "Applying patch..."])
          ++ [lit "ERROR: Failed to patch file " ++ Path p ++ lit ": " ++ msg])
       (writes w ++ [(Path p, strip c ++ [NL; NL] ++ old)])).
Proof.
  intros H Hr Hd Hs Hw. unfold_program. run_with H Hr Hd Hs. by rewrite Hw.
Qed.

(** The write raises after the target was truncated. *)
Lemma apply_patch_write_fails (w : world) (p c : str) (nd : node) (old msg : str) (k : nat) :
  fs w !! Path p = Some nd →
  node_ropen nd = None →
  node_data nd = Text old →
  startswith old (strip c) = false →
  node_wopen nd = None →
  node_wfail nd = Some (msg, k) →
  apply_patch p c w =
    (Ret false,
     World (<[Path p := with_data nd (take k (strip c ++ [NL; NL] ++ old))]> (fs w))
       (((stdout w ++ [lit "--- Checking " ++ Path p ++ lit " ---"])
           ++ [lit "Applying patch..."])
          ++ [lit "ERROR: Failed to patch file " ++ Path p ++ lit ": " ++ msg])
       (writes w ++ [(Path p, strip c ++ [NL; NL] ++ old)])).
Proof.
  intros H Hr Hd Hs Hw Hf. unfold_program. run_with H Hr Hd Hs. by rewrite Hw, Hf.
Qed.

(** ** Reading a file *)

Lemma read_text_ok (w : world) (path : str) (nd : node) (old : str) :
  fs w !! path = Some nd → node_ropen nd = None → node_data nd = Text old →
  read_text path w = (Ret old, w).
Proof. intros H Hr Hd. unfold read_text. by rewrite H, Hr, Hd. Qed.

Lemma read_text_refused (w : world) (path : str) (nd : node) (msg : str) :
  fs w !! path = Some nd → node_ropen nd = Some msg →
  read_text path w = (Raise (OSError msg), w).
Proof. intros H Hr. unfold read_text. by rewrite H, Hr. Qed.

Lemma read_text_undecodable (w : world) (path : str) (nd : node) (msg : str) :
  fs w !! path = Some nd → node_ropen nd = None → node_data nd = Undecodable msg →
  read_text path w = (Raise (UnicodeDecodeError msg), w).
Proof. intros H Hr Hd. unfold read_text. by rewrite H, Hr, Hd. Qed.

(** [read_text] looks at the files only. *)
Lemma read_text_fs (w w' : world) (path : str) :
  fs w = fs w' → returns (read_text path) w = returns (read_text path) w'.
Proof.
  intros E. unfold returns, read_text. rewrite E.
  destruct (fs w' !! path) as [nd|]; [|done].
  destruct (node_ropen nd); [done|]. by destruct (node_data nd).
Qed.

(** Split on what [apply_patch] finds at the target: the file is missing,
    cannot be opened, does not decode, already begins with the patch, or
    is to be written, with the three ways the write can go. *)
Ltac branches w p c :=
  let nd := fresh "nd" in
  destruct (fs w !! Path p) as [nd|] eqn:Hfs;
  [ destruct (node_ropen nd) as [rmsg|] eqn:Hr;
    [ | destruct (node_data nd) as [old|dmsg] eqn:Hd;
        [ destruct (startswith old (strip c)) eqn:Hs;
          [ | destruct (node_wopen nd) as [wmsg|] eqn:Hw;
              [ | destruct (node_wfail nd) as [[fmsg k]|] eqn:Hf ] ]
        | ] ]
  | ].

(** [apply_patch] always returns: no exception leaves it. *)
Lemma apply_patch_total (w : world) (p c : str) :
  ∃ ok, returns (apply_patch p c) w = Ret ok.
Proof.
  unfold returns. branches w p c.
  - erewrite apply_patch_read_raises; eauto.
    unfold returns. by erewrite read_text_refused.
  - erewrite apply_patch_applied; eauto.
  - erewrite apply_patch_open_refused; eauto.
  - erewrite apply_patch_write_fails; eauto.
  - erewrite apply_patch_written; eauto.
  - erewrite apply_patch_read_raises; eauto.
    unfold returns. by erewrite read_text_undecodable.
  - erewrite apply_patch_missing; eauto.
Qed.

(** ** Applying a patch twice *)




(** ** What one call does to an existing, readable file *)

Lemma read_text_Ret_inv (w : world) (path old : str) :
  returns (read_text path) w = Ret old →
  ∃ nd, fs w !! path = Some nd ∧ node_ropen nd = None ∧ node_data nd = Text old.
Proof.
  unfold returns, read_text.
  destruct (fs w !! path) as [nd|]; [|done].
  destruct (node_ropen nd) eqn:Hr; [done|].
  destruct (node_data nd) eqn:Hd; cbn; [|done].
  intros [= ->]. by exists nd.
Qed.

(** [write_text] on an existing file goes one of three ways. *)
Lemma write_text_existing (w : world) (path data : str) (nd : node) :
  fs w !! path = Some nd →
  (returns (write_text path data) w = Ret tt
   ∧ node_wopen nd = None ∧ node_wfail nd = None)
  ∨ (∃ msg, returns (write_text path data) w = Raise (OSError msg)
            ∧ node_wopen nd = Some msg)
  ∨ (∃ msg k, returns (write_text path data) w = Raise (OSError msg)
              ∧ node_wopen nd = None ∧ node_wfail nd = Some (msg, k)).
Proof.
  intros H. unfold returns, write_text. rewrite H.
  destruct (node_wopen nd) as [msg|]; [right; left; by exists msg|].
  destruct (node_wfail nd) as [[msg k]|]; [right; right; by exists msg, k|].
  by left.
Qed.

(** The call on a readable file that does not begin with the stripped
    patch: [write_text] is called once, with the patch, a blank line and the
    old content; the call returns [True] exactly when that write returns,
    and then the file holds what was written. *)
Lemma apply_patch_write_outcome (w : world) (p c old : str) :
  returns (read_text (Path p)) w = Ret old →
  startswith old (strip c) = false →
  let new := strip c ++ [NL; NL] ++ old in
  let w' := after (apply_patch p c) w in
  writes w' = writes w ++ [(Path p, new)]
  ∧ (returns (write_text (Path p) new) w = Ret tt →
     returns (apply_patch p c) w = Ret true
     ∧ returns (read_text (Path p)) w' = Ret new
     ∧ ∃ nd, fs w !! Path p = Some nd ∧ fs w' = <[Path p := with_data nd new]> (fs w))
  ∧ (∀ e, returns (write_text (Path p) new) w = Raise e →
     returns (apply_patch p c) w = Ret false).
Proof.
  intros (nd & Hfs & Hr & Hd)%read_text_Ret_inv Hs new w'. subst w'.
  unfold after, returns.
  destruct (write_text_existing w (Path p) new nd Hfs)
    as [(Hret & Hw & Hf)|[(msg & Hret & Hw)|(msg & k & Hret & Hw & Hf)]];
    unfold returns in Hret; rewrite Hret.
  - rewrite (apply_patch_written w p c nd old Hfs Hr Hd Hs Hw Hf). cbn.
    split; [done|]. split; [|done]. intros _. split; [done|]. split.
    + by erewrite read_text_ok; [| cbn; apply lookup_insert_eq | |].
    + by exists nd.
  - rewrite (apply_patch_open_refused w p c nd old msg Hfs Hr Hd Hs Hw). cbn.
    split; [done|]. split; [done|]. done.
  - rewrite (apply_patch_write_fails w p c nd old msg k Hfs Hr Hd Hs Hw Hf). cbn.
    split; [done|]. split; [done|]. done.
Qed.

(** The call on a readable file that begins with the stripped patch. *)
Lemma apply_patch_skip_outcome (w : world) (p c old : str) :
  returns (read_text (Path p)) w = Ret old →
  startswith old (strip c) = true →
  apply_patch p c w =
    (Ret true,
     World (fs w)
       ((stdout w ++ [lit "--- Checking " ++ Path p ++ lit " ---"])
          ++ [lit "Patch already applied, skipping."])
       (writes w)).
Proof.
  intros (nd & Hfs & Hr & Hd)%read_text_Ret_inv Hs.
  by apply (apply_patch_applied w p c nd old).
Qed.

(** A call that returns [True] read the file, and either found the patch
    in front or wrote it. *)
Lemma apply_patch_True_inv (w : world) (p c : str) :
  returns (apply_patch p c) w = Ret true →
  ∃ old, returns (read_text (Path p)) w = Ret old
  ∧ (startswith old (strip c) = true
     ∨ (startswith old (strip c) = false
        ∧ returns (write_text (Path p) (strip c ++ [NL; NL] ++ old)) w = Ret tt)).
Proof.
  unfold returns at 1. branches w p c.
  - erewrite apply_patch_read_raises; eauto; [done|].
    unfold returns. by erewrite read_text_refused.
  - intros _. exists old. split; [|by left].
    unfold returns. by erewrite read_text_ok.
  - by erewrite apply_patch_open_refused.
  - by erewrite apply_patch_write_fails.
  - intros _. exists old. split.
    + unfold returns. by erewrite read_text_ok.
    + right. split; [done|]. unfold returns, write_text. by rewrite Hfs, Hw, Hf.
  - erewrite apply_patch_read_raises; eauto; [done|].
    unfold returns. by erewrite read_text_undecodable.
  - by erewrite apply_patch_missing.
Qed.

(** ** The properties of [apply_patch] *)





(** C7. [apply_patch] works with the patch body stripped of its leading and
    trailing whitespace: the stripped body is the body without a run of
    whitespace at each end, and it neither begins nor ends with whitespace;
    the prefix test is made against the stripped body, and what is written
    begins with the stripped body, so that a call with the body behaves as a
    call with the stripped body. The body ["\n  #include <bar.h>  \n"]
    strips to ["#include <bar.h>"]. *)
Theorem apply_patch_normalizes (w : world) (p c old : str) :
  returns (read_text (Path p)) w = Ret old →
  let w' := after (apply_patch p c) w in
  (∃ l r, c = l ++ strip c ++ r
          ∧ forallb isspace l = true ∧ forallb isspace r = true)
  ∧ (∀ ch, head (strip c) = Some ch ∨ last (strip c) = Some ch → isspace ch = false)
  ∧ (if startswith old (strip c)
     then returns (apply_patch p c) w = Ret true ∧ writes w' = writes w
     else writes w' = writes w ++ [(Path p, strip c ++ [NL; NL] ++ old)])
  ∧ apply_patch p c w = apply_patch p (strip c) w
  ∧ strip ([NL] ++ lit "  #include <bar.h>  " ++ [NL]) = lit "#include <bar.h>".
Proof.
  intros Hread w'. subst w'.
  split; [apply strip_split|].
  split; [intros ch [H|H]; [by apply (strip_head c)|by apply (strip_last c)]|].
  split; [|split; [unfold apply_patch; by rewrite strip_idempotent|by vm_compute]].
  destruct (startswith old (strip c)) eqn:Hs.
  - unfold after, returns.
    by rewrite (apply_patch_skip_outcome w p c old Hread Hs).
  - by destruct (apply_patch_write_outcome w p c old Hread Hs) as (Hlog & _).
Qed.

(** C9 (amended). The prefix test compares the content as read, not
    stripped. So for every existing, readable file whose content is a
    non-empty run of whitespace followed by the stripped patch body and the
    rest, where the stripped patch body is not empty, [apply_patch] does not
    find the patch in place: it calls [write_text] with the patch prepended
    once more, and when that write completes the file holds the patch body
    twice and [apply_patch] returns [True]. *)
Theorem apply_patch_duplicates (w : world) (p c ws rest : str) :
  returns (read_text (Path p)) w = Ret (ws ++ strip c ++ rest) →
  ws ≠ [] → forallb isspace ws = true → strip c ≠ [] →
  let new := strip c ++ [NL; NL] ++ ws ++ strip c ++ rest in
  let w' := after (apply_patch p c) w in
  startswith (ws ++ strip c ++ rest) (strip c) = false
  ∧ writes w' = writes w ++ [(Path p, new)]
  ∧ (returns (write_text (Path p) new) w = Ret tt →
     returns (apply_patch p c) w = Ret true
     ∧ returns (read_text (Path p)) w' = Ret new).
Proof.
  intros Hread Hne Hws Hnp new w'.
  assert (Hs : startswith (ws ++ strip c ++ rest) (strip c) = false)
    by by apply startswith_space_strip.
  destruct (apply_patch_write_outcome w p c _ Hread Hs) as (Hlog & Hok & _).
  split; [done|]. split; [done|].
  intros Hw. destruct (Hok Hw) as (Hret & Hnew & _). by split.
Qed.

(** C10. For every existing, readable target file, a patch body that
    strips to the empty string makes [apply_patch] return [True] without a
    call of [write_text]: the files are left as they were. *)
Theorem apply_patch_empty_patch (w : world) (p c old : str) :
  returns (read_text (Path p)) w = Ret old →
  strip c = [] →
  let w' := after (apply_patch p c) w in
  returns (apply_patch p c) w = Ret true
  ∧ writes w' = writes w
  ∧ fs w' = fs w.
Proof.
  intros Hread Hc w'. subst w'.
  assert (Hs : startswith old (strip c) = true)
    by (rewrite Hc; apply startswith_nil).
  unfold after, returns.
  by rewrite (apply_patch_skip_outcome w p c old Hread Hs).
Qed.

(** ** The loop and [main] *)

Lemma apply_patch_pair (w : world) (p c : str) :
  ∃ ok, apply_patch p c w = (Ret ok, after (apply_patch p c) w).
Proof.
  destruct (apply_patch_total w p c) as [ok Hok]. exists ok.
  unfold returns in Hok. unfold after.
  destruct (apply_patch p c w) as [r w']. cbn in *. by subst.
Qed.

Lemma outcomes_cons (w : world) (p c : str) (items : list (str * str)) (ok : bool) :
  returns (apply_patch p c) w = Ret ok →
  outcomes ((p, c) :: items) w = ok :: outcomes items (after (apply_patch p c) w).
Proof.
  unfold returns, after. cbn [outcomes].
  destruct (apply_patch p c w) as [r w']. cbn. by intros ->.
Qed.

(** Every entry of the table gets its outcome. *)
Lemma outcomes_length (items : list (str * str)) (w : world) :
  length (outcomes items w) = length items.
Proof.
  revert w. induction items as [|[p c] items IH]; intros w; [done|].
  destruct (apply_patch_total w p c) as [ok Hok].
  rewrite (outcomes_cons w p c items ok Hok). cbn. by rewrite IH.
Qed.

Lemma successes_cons (w : world) (p c : str) (items : list (str * str)) (ok : bool) :
  returns (apply_patch p c) w = Ret ok →
  successes ((p, c) :: items) w
  = (if ok then 1 else 0) + successes items (after (apply_patch p c) w).
Proof.
  intros Hok. unfold successes. rewrite (outcomes_cons w p c items ok Hok).
  rewrite filter_cons. by destruct ok.
Qed.

Lemma successes_le (items : list (str * str)) (w : world) :
  successes items w ≤ length items.
Proof.
  unfold successes. rewrite <- (outcomes_length items w). apply length_filter.
Qed.

(** The loop returns the count it started from plus the number of entries
    for which [apply_patch] returned [True]. *)
Lemma for_items_returns (items : list (str * str)) (n : nat) (w : world) :
  returns (for_items items n) w = Ret (n + successes items w).
Proof.
  revert n w. induction items as [|[p c] items IH]; intros n w.
  - unfold successes. cbn. f_equal. lia.
  - destruct (apply_patch_pair w p c) as [ok Hok].
    assert (Hret : returns (apply_patch p c) w = Ret ok)
      by (unfold returns; by rewrite Hok).
    rewrite (successes_cons w p c items ok Hret).
    unfold returns. cbn [for_items]. unfold mbind at 1, M_bind at 1.
    rewrite Hok. fold (returns (for_items items (if ok then n + 1 else n))
                          (after (apply_patch p c) w)).
    rewrite IH. f_equal. destruct ok; lia.
Qed.


Lemma for_items_cons_after (w : world) (p c : str) (items : list (str * str)) (n : nat) :
  ∃ m, after (for_items ((p, c) :: items) n) w
       = after (for_items items m) (after (apply_patch p c) w).
Proof.
  destruct (apply_patch_pair w p c) as [ok Hok].
  exists (if ok then n + 1 else n).
  unfold after at 1. cbn [for_items]. unfold mbind at 1, M_bind at 1.
  by rewrite Hok.
Qed.


(** What [main] does, in one equation: it prints the opening line, runs the
    loop, prints the rule and the summary, and exits with status 1 unless
    every entry succeeded. *)
Lemma main_runs (PATCHES : list (str * str)) (w : world) :
  let w0 := after (print (lit "Starting C source file patching process...")) w in
  let wl := after (for_items PATCHES 0) w0 in
  let K := successes PATCHES w0 in
  main PATCHES w =
    (if K =? length PATCHES then Ret tt else Raise (SystemExit 1),
     World (fs wl)
       ((stdout wl ++ [lit "-----------------------------------------"])
          ++ [summary K (length PATCHES)])
       (writes wl)).
Proof.
  intros w0 wl K.
  pose proof (for_items_returns PATCHES 0 w0) as Hret.
  unfold returns in Hret. change (0 + successes PATCHES w0) with K in Hret.
  unfold main. unfold mbind at 1, M_bind at 1.
  change (print (lit "Starting C source file patching process...") w)
    with (Ret tt, w0).
  cbn iota. unfold mbind at 1, M_bind at 1.
  destruct (for_items PATCHES 0 w0) as [r wl'] eqn:E.
  assert (wl = wl') as <- by (subst wl; unfold after; by rewrite E).
  cbn [fst] in Hret. subst r.
  unfold_program. by destruct (K =? length PATCHES).
Qed.




(** ** The effect of one call on the files *)

Lemma insert_as_alter (m : gmap str node) (path : str) (nd : node) (f : node → node) :
  m !! path = Some nd → <[path := f nd]> m = alter f path m.
Proof.
  intros H. apply map_eq. intros q.
  destruct (decide (path = q)) as [<-|Hne].
  - by rewrite lookup_insert_eq, lookup_alter_eq, H.
  - by rewrite lookup_insert_ne, lookup_alter_ne.
Qed.

Lemma unchanged_as_alter (m : gmap str node) (path : str) (f : node → node) :
  (∀ nd, m !! path = Some nd → f nd = nd) → m = alter f path m.
Proof.
  intros H. apply map_eq. intros q.
  destruct (decide (path = q)) as [<-|Hne].
  - rewrite lookup_alter_eq. destruct (m !! path) as [nd|] eqn:E; [|done].
    cbn. by rewrite (H nd).
  - by rewrite lookup_alter_ne.
Qed.

(** The files after a call are the files before it with the target, if it
    exists, replaced by [patched]. *)
Lemma apply_patch_fs (w : world) (p c : str) :
  fs (after (apply_patch p c) w) = alter (patched (strip c)) (Path p) (fs w).
Proof.
  unfold after. branches w p c.
  - erewrite apply_patch_read_raises; eauto;
      [|unfold returns; by erewrite read_text_refused].
    cbn. apply unchanged_as_alter. intros ? E; rewrite Hfs in E; injection E as <-. unfold patched. by rewrite Hr.
  - erewrite apply_patch_applied; eauto.
    cbn. apply unchanged_as_alter. intros ? E; rewrite Hfs in E; injection E as <-. unfold patched. by rewrite Hr, Hd, Hs.
  - erewrite apply_patch_open_refused; eauto.
    cbn. apply unchanged_as_alter. intros ? E; rewrite Hfs in E; injection E as <-.
    unfold patched. by rewrite Hr, Hd, Hs, Hw.
  - erewrite apply_patch_write_fails; eauto.
    cbn. rewrite <- (insert_as_alter _ _ nd) by done.
    unfold patched. by rewrite Hr, Hd, Hs, Hw, Hf.
  - erewrite apply_patch_written; eauto.
    cbn. rewrite <- (insert_as_alter _ _ nd) by done.
    unfold patched. by rewrite Hr, Hd, Hs, Hw, Hf.
  - erewrite apply_patch_read_raises; eauto;
      [|unfold returns; by erewrite read_text_undecodable].
    cbn. apply unchanged_as_alter. intros ? E; rewrite Hfs in E; injection E as <-. unfold patched. by rewrite Hr, Hd.
  - erewrite apply_patch_missing; eauto.
    cbn. apply unchanged_as_alter. intros nd. by rewrite Hfs.
Qed.





(** X1. [apply_patch] neither creates nor removes a file, and it leaves
    every file other than its target exactly as it was. *)
Theorem apply_patch_other_files (w : world) (p c : str) :
  let w' := after (apply_patch p c) w in
  dom (fs w') = dom (fs w)
  ∧ ∀ q, q ≠ Path p → fs w' !! q = fs w !! q.
Proof.
  intros w'. subst w'. rewrite apply_patch_fs. split.
  - apply dom_alter_L.
  - intros q Hq. by apply lookup_alter_ne.
Qed.

(** X2. [apply_patch] calls [write_text] at most once. When it makes no
    call the files are unchanged; when it makes one, the call is on the
    target, after a read that returned a content without the patch in
    front, and with the stripped patch, two newlines and that content. *)
Theorem apply_patch_writes_once (w : world) (p c : str) :
  let w' := after (apply_patch p c) w in
  (writes w' = writes w ∧ fs w' = fs w)
  ∨ (∃ old, returns (read_text (Path p)) w = Ret old
            ∧ startswith old (strip c) = false
            ∧ writes w' = writes w ++ [(Path p, strip c ++ [NL; NL] ++ old)]).
Proof.
  intros w'. subst w'. unfold after. branches w p c.
  - left. erewrite apply_patch_read_raises; eauto.
    unfold returns. by erewrite read_text_refused.
  - left. by erewrite apply_patch_applied.
  - right. exists old. erewrite apply_patch_open_refused; eauto.
    unfold returns. by erewrite read_text_ok.
  - right. exists old. erewrite apply_patch_write_fails; eauto.
    unfold returns. by erewrite read_text_ok.
  - right. exists old. erewrite apply_patch_written; eauto.
    unfold returns. by erewrite read_text_ok.
  - left. erewrite apply_patch_read_raises; eauto.
    unfold returns. by erewrite read_text_undecodable.
  - left. by erewrite apply_patch_missing.
Qed.

(** X3. [apply_patch] returns [True] exactly when the target can be read
    and either begins with the stripped patch or takes the write of the
    patched content without an exception. *)
Theorem apply_patch_succeeds_iff (w : world) (p c : str) :
  returns (apply_patch p c) w = Ret true
  ↔ ∃ old, returns (read_text (Path p)) w = Ret old
           ∧ (startswith old (strip c) = true
              ∨ returns (write_text (Path p) (strip c ++ [NL; NL] ++ old)) w = Ret tt).
Proof.
  split.
  - intros H. destruct (apply_patch_True_inv w p c H) as (old & Hread & [Hs|[_ Hw]]);
      exists old; split; auto.
  - intros (old & Hread & Hcase).
    destruct (startswith old (strip c)) eqn:Hs.
    + unfold returns. by rewrite (apply_patch_skip_outcome w p c old Hread Hs).
    + destruct Hcase as [|Hw]; [done|].
      destruct (apply_patch_write_outcome w p c old Hread Hs) as (_ & Hok & _).
      by destruct (Hok Hw).
Qed.

(** ** What one call prints *)

Lemma startswith_ERROR (tail : str) :
  startswith (lit "ERROR: " ++ tail) (lit "ERROR: ") = true.
Proof. apply startswith_app. Qed.

(** X4. The last line that [apply_patch] prints tells what it returns: the
    line begins with [ERROR: ] exactly when the call returns [False]. *)
Theorem apply_patch_error_line (w : world) (p c : str) :
  ∃ line,
    last (stdout (after (apply_patch p c) w)) = Some line
    ∧ (returns (apply_patch p c) w = Ret false
       ↔ startswith line (lit "ERROR: ") = true).
Proof.
  assert (Efailed : ∀ tail, lit "ERROR: Failed to patch file " ++ tail
                            = lit "ERROR: " ++ lit "Failed to patch file " ++ tail)
    by done.
  assert (Emissing : ∀ tail, lit "ERROR: File not found at " ++ tail
                             = lit "ERROR: " ++ lit "File not found at " ++ tail)
    by done.
  unfold after, returns. branches w p c.
  - erewrite apply_patch_read_raises; eauto;
      [|unfold returns; by erewrite read_text_refused].
    cbn. eexists. rewrite last_snoc. split; [done|].
    by rewrite Efailed, startswith_ERROR.
  - erewrite apply_patch_applied; eauto.
    cbn. eexists. rewrite last_snoc. split; [done|]. by split.
  - erewrite apply_patch_open_refused; eauto.
    cbn. eexists. rewrite last_snoc. split; [done|].
    by rewrite Efailed, startswith_ERROR.
  - erewrite apply_patch_write_fails; eauto.
    cbn. eexists. rewrite last_snoc. split; [done|].
    by rewrite Efailed, startswith_ERROR.
  - erewrite apply_patch_written; eauto.
    cbn. eexists. rewrite last_snoc. split; [done|]. by split.
  - erewrite apply_patch_read_raises; eauto;
      [|unfold returns; by erewrite read_text_undecodable].
    cbn. eexists. rewrite last_snoc. split; [done|].
    by rewrite Efailed, startswith_ERROR.
  - erewrite apply_patch_missing; eauto.
    cbn. eexists. rewrite last_snoc. split; [done|].
    by rewrite Emissing, startswith_ERROR.
Qed.

(** X5. When the target exists and the read or the write raises, the last
    line printed names the file and carries the message of the exception. *)
Theorem apply_patch_reports_exception (w : world) (p c : str) (e : exn) :
  is_Some (fs w !! Path p) →
  returns (read_text (Path p)) w = Raise e
  ∨ (∃ old, returns (read_text (Path p)) w = Ret old
            ∧ startswith old (strip c) = false
            ∧ returns (write_text (Path p) (strip c ++ [NL; NL] ++ old)) w = Raise e) →
  last (stdout (after (apply_patch p c) w))
  = Some (lit "ERROR: Failed to patch file " ++ Path p ++ lit ": " ++ str_of_exn e).
Proof.
  intros [nd Hfs] [Hread|(old & Hread & Hs & Hw)]; unfold after.
  - rewrite (apply_patch_read_raises w p c nd e Hfs Hread). cbn. by rewrite last_snoc.
  - destruct (read_text_Ret_inv _ _ _ Hread) as (nd' & Hfs' & Hr & Hd).
    rewrite Hfs in Hfs'. injection Hfs' as <-.
    destruct (write_text_existing w (Path p) (strip c ++ [NL; NL] ++ old) nd Hfs)
      as [(Hret & _)|[(msg & Hret & Hwo)|(msg & k & Hret & Hwo & Hwf)]];
      rewrite Hret in Hw; [done| |]; injection Hw as <-.
    + rewrite (apply_patch_open_refused w p c nd old msg Hfs Hr Hd Hs Hwo).
      cbn. by rewrite last_snoc.
    + rewrite (apply_patch_write_fails w p c nd old msg k Hfs Hr Hd Hs Hwo Hwf).
      cbn. by rewrite last_snoc.
Qed.

(** ** Whitespace around the patch body *)

Lemma lstrip_spaces_app (ws s : str) :
  forallb isspace ws = true → lstrip (ws ++ s) = lstrip s.
Proof.
  induction ws as [|ch ws IH]; [done|].
  intros [Hc Hws]%andb_true_iff. cbn [app lstrip]. rewrite Hc. auto.
Qed.

Lemma lstrip_app_kept (s t : str) :
  lstrip s ≠ [] → lstrip (s ++ t) = lstrip s ++ t.
Proof.
  induction s as [|ch s IH]; [done|].
  cbn [app lstrip]. by destruct (isspace ch).
Qed.

Lemma rstrip_app_spaces (s ws : str) :
  forallb isspace ws = true → rstrip (s ++ ws) = rstrip s.
Proof.
  intros Hws. unfold rstrip. rewrite reverse_app, lstrip_spaces_app; [done|].
  rewrite forallb_forall in *. intros ch Hc. apply Hws.
  apply list_elem_of_In, elem_of_reverse, list_elem_of_In. done.
Qed.

Lemma rstrip_nil : rstrip [] = [].
Proof. done. Qed.

(** Whitespace added at either end of a string is stripped with the
    string's own. *)
Lemma strip_surrounded (l s r : str) :
  forallb isspace l = true → forallb isspace r = true →
  strip (l ++ s ++ r) = strip s.
Proof.
  intros Hl Hr. unfold strip. rewrite lstrip_spaces_app by done.
  destruct (lstrip s) as [|ch t] eqn:E.
  - destruct (lstrip_split s) as (ws & Hs & Hws). rewrite E, app_nil_r in Hs. subst ws.
    rewrite <- (app_nil_r (s ++ r)), lstrip_spaces_app; [done|].
    rewrite forallb_app. by rewrite Hws, Hr.
  - rewrite lstrip_app_kept by (by rewrite E). rewrite E.
    by apply rstrip_app_spaces.
Qed.

(** X6. Whitespace around the patch body makes no difference: a call with
    whitespace added before and after the body does what the call with the
    body does. *)
Theorem apply_patch_ignores_surrounding_whitespace (w : world) (p c l r : str) :
  forallb isspace l = true → forallb isspace r = true →
  apply_patch p (l ++ c ++ r) w = apply_patch p c w.
Proof.
  intros Hl Hr. unfold apply_patch. by rewrite strip_surrounded.
Qed.

(** ** Calling again and again *)



(** ** The effect of the loop on the files *)

Lemma main_after (PATCHES : list (str * str)) (w : world) :
  let w0 := after (print (lit "Starting C source file patching process...")) w in
  fs (after (main PATCHES) w) = fs (after (for_items PATCHES 0) w0)
  ∧ writes (after (main PATCHES) w) = writes (after (for_items PATCHES 0) w0)
  ∧ fs w0 = fs w ∧ writes w0 = writes w.
Proof. intros w0. unfold after at 1 3. by rewrite main_runs. Qed.


Lemma for_items_other (items : list (str * str)) (n : nat) (w : world) (q : str) :
  q ∉ targets items → fs (after (for_items items n) w) !! q = fs w !! q.
Proof.
  revert n w. induction items as [|[p c] items IH]; intros n w Hq; [done|].
  destruct (for_items_cons_after w p c items n) as [m ->].
  cbn in Hq. apply not_elem_of_cons in Hq as [Hne Hq].
  rewrite IH by done. rewrite apply_patch_fs. by apply lookup_alter_ne.
Qed.

Lemma for_items_dom (items : list (str * str)) (n : nat) (w : world) :
  dom (fs (after (for_items items n) w)) = dom (fs w).
Proof.
  revert n w. induction items as [|[p c] items IH]; intros n w; [done|].
  destruct (for_items_cons_after w p c items n) as [m ->].
  rewrite IH, apply_patch_fs. apply dom_alter_L.
Qed.


(** X8. [main] touches the files of its table only: it neither creates nor
    removes a file, and a file that no entry names is left as it was. *)
Theorem main_other_files (PATCHES : list (str * str)) (w : world) :
  let w' := after (main PATCHES) w in
  dom (fs w') = dom (fs w)
  ∧ ∀ q, q ∉ targets PATCHES → fs w' !! q = fs w !! q.
Proof.
  intros w'. subst w'.
  destruct (main_after PATCHES w) as (-> & _ & Hfs0 & _). split.
  - by rewrite for_items_dom, Hfs0.
  - intros q Hq. by rewrite for_items_other, Hfs0.
Qed.

(** ** Running [main] on a patched tree, and running it again *)

Lemma in_place_fs (items : list (str * str)) (w w' : world) :
  fs w = fs w' → in_place items w → in_place items w'.
Proof.
  intros E H p c Hin. destruct (H p c Hin) as (old & Hread & Hs).
  exists old. split; [|done]. rewrite <- Hread. symmetry. by apply read_text_fs.
Qed.

(** On entries that are in place the loop changes nothing and counts every
    entry. *)
Lemma for_items_in_place (items : list (str * str)) (n : nat) (w : world) :
  in_place items w →
  fs (after (for_items items n) w) = fs w
  ∧ writes (after (for_items items n) w) = writes w
  ∧ successes items w = length items.
Proof.
  revert n w. induction items as [|[p c] items IH]; intros n w H; [done|].
  destruct (H p c) as (old & Hread & Hs); [by left|].
  pose proof (apply_patch_skip_outcome w p c old Hread Hs) as Hskip.
  assert (Hret : returns (apply_patch p c) w = Ret true)
    by (unfold returns; by rewrite Hskip).
  destruct (for_items_cons_after w p c items n) as [m ->].
  rewrite (successes_cons w p c items true Hret).
  set (w1 := after (apply_patch p c) w).
  assert (Hfs1 : fs w1 = fs w) by (subst w1; unfold after; by rewrite Hskip).
  assert (Hlog1 : writes w1 = writes w) by (subst w1; unfold after; by rewrite Hskip).
  destruct (IH m w1) as (Hfs & Hlog & Hall).
  - apply (in_place_fs items w); [done|].
    intros q d Hin. apply (H q d). by right.
  - rewrite Hfs, Hlog, Hall. done.
Qed.

(** X9. On a tree where every target can be read and already begins with
    its stripped patch, [main] returns (exit status 0), calls [write_text]
    for no file, leaves the files as they are, and reports N of N. *)
Theorem main_in_place (PATCHES : list (str * str)) (w : world) :
  in_place PATCHES w →
  let w' := after (main PATCHES) w in
  returns (main PATCHES) w = Ret tt
  ∧ fs w' = fs w
  ∧ writes w' = writes w
  ∧ last (stdout w') = Some (summary (length PATCHES) (length PATCHES)).
Proof.
  intros H w'. subst w'.
  set (w0 := after (print (lit "Starting C source file patching process...")) w).
  assert (H0 : in_place PATCHES w0) by by apply (in_place_fs PATCHES w).
  destruct (for_items_in_place PATCHES 0 w0 H0) as (Hfs & Hlog & Hall).
  unfold after, returns. rewrite main_runs. fold w0. rewrite Hall, Nat.eqb_refl.
  cbn [fst snd fs writes stdout]. rewrite last_snoc.
  by rewrite Hfs, Hlog.
Qed.




(** ** A missing file, the order of the entries, and the writes of a run *)

Lemma successes_missing (items : list (str * str)) (w : world) (p c : str) :
  (p, c) ∈ items → fs w !! Path p = None →
  successes items w < length items.
Proof.
  revert w. induction items as [|[p0 c0] items IH]; intros w Hin Hnone.
  - by apply elem_of_nil in Hin.
  - destruct (apply_patch_total w p0 c0) as [ok Hok].
    rewrite (successes_cons w p0 c0 items ok Hok). cbn [length].
    apply elem_of_cons in Hin as [[= -> ->]|Hin].
    + unfold returns in Hok. rewrite (apply_patch_missing w p0 c0 Hnone) in Hok.
      injection Hok as <-.
      pose proof (successes_le items (after (apply_patch p0 c0) w)). lia.
    + assert (successes items (after (apply_patch p0 c0) w) < length items).
      { apply IH; [done|]. rewrite apply_patch_fs. by apply lookup_alter_None. }
      destruct ok; lia.
Qed.

(** X12. A file of the table that does not exist makes the run fail:
    [main] exits with status 1, and the file still does not exist
    afterwards. *)
Theorem main_missing_file (PATCHES : list (str * str)) (w : world) (p c : str) :
  (p, c) ∈ PATCHES → fs w !! Path p = None →
  exit_status (returns (main PATCHES) w) = 1%Z
  ∧ fs (after (main PATCHES) w) !! Path p = None.
Proof.
  intros Hin Hnone. split.
  - unfold returns. rewrite main_runs. cbn [fst].
    set (w0 := after (print (lit "Starting C source file patching process...")) w).
    pose proof (successes_missing PATCHES w0 p c Hin Hnone) as Hlt.
    destruct (successes PATCHES w0 =? length PATCHES) eqn:E; [|done].
    apply Nat.eqb_eq in E. lia.
  - destruct (main_after PATCHES w) as (-> & _ & Hfs0 & _).
    apply not_elem_of_dom. rewrite for_items_dom, Hfs0. by apply not_elem_of_dom.
Qed.









End Program.

(** ** The properties at concrete inputs *)








(** C7 at the scenario of the specification: the patch body
    ["\n  #include <bar.h>  \n"] is written as ["#include <bar.h>"]. *)
Lemma apply_patch_normalizes_scenario :
  let w := one_file main_c main_body in
  let c := [NL] ++ lit "  #include <bar.h>  " ++ [NL] in
  let w' := after (apply_patch normal_path main_c c) w in
  returns (read_text (normal_path main_c)) w = Ret main_body
  ∧ writes w' = writes w ++ [(normal_path main_c, strip c ++ [NL; NL] ++ main_body)]
  ∧ strip c = lit "#include <bar.h>".
Proof.
  intros w c w'.
  assert (Hread : returns (read_text (normal_path main_c)) w = Ret main_body)
    by reflexivity.
  destruct (apply_patch_normalizes normal_path w main_c c main_body Hread)
    as (_ & _ & Hcmp & _ & Hstrip).
  split; [exact Hread|]. split; [exact Hcmp|exact Hstrip].
Defined.

(** C9, the claim as stated fails in two ways. A patch body that strips to
    the empty string is found in place in a file that begins with
    whitespace, and nothing is written. And when the file cannot be opened
    for writing, the patch is not prepended and no file holds it twice. *)
Lemma apply_patch_no_duplicate :
  (let content := [32%N] ++ [] ++ lit "int x;" in
   let w := one_file main_c content in
   let c := [32%N] in
   let w' := after (apply_patch normal_path main_c c) w in
   strip c = []
   ∧ returns (read_text (normal_path main_c)) w = Ret ([32%N] ++ strip c ++ lit "int x;")
   ∧ returns (apply_patch normal_path main_c c) w = Ret true
   ∧ writes w' = []
   ∧ returns (read_text (normal_path main_c)) w' = Ret content)
  ∧ (let content := [32%N] ++ foo_include ++ [NL] in
     let w := read_only_file main_c content in
     let w' := after (apply_patch normal_path main_c foo_include) w in
     returns (read_text (normal_path main_c)) w = Ret ([32%N] ++ strip foo_include ++ [NL])
     ∧ returns (apply_patch normal_path main_c foo_include) w = Ret false
     ∧ returns (read_text (normal_path main_c)) w' = Ret content).
Proof. by vm_compute. Qed.

(** C9 at a concrete input: a file that holds the patch after one space. *)
Lemma apply_patch_duplicates_example :
  let content := [32%N] ++ strip foo_include ++ [NL] in
  let w := one_file main_c content in
  let w' := after (apply_patch normal_path main_c foo_include) w in
  returns (read_text (normal_path main_c)) w = Ret content
  ∧ startswith content (strip foo_include) = false
  ∧ returns (apply_patch normal_path main_c foo_include) w = Ret true
  ∧ returns (read_text (normal_path main_c)) w'
    = Ret (lit "#include <foo.h>" ++ [NL; NL]
           ++ [32%N] ++ lit "#include <foo.h>" ++ [NL]).
Proof.
  intros content w w'.
  assert (Hread : returns (read_text (normal_path main_c)) w
                  = Ret ([32%N] ++ strip foo_include ++ [NL])) by reflexivity.
  assert (Hne : [32%N] ≠ []) by discriminate.
  assert (Hws : forallb isspace [32%N] = true) by reflexivity.
  assert (Hnp : strip foo_include ≠ []) by (vm_compute; discriminate).
  destruct (apply_patch_duplicates normal_path w main_c foo_include [32%N] [NL]
              Hread Hne Hws Hnp) as (Hs & _ & Hok).
  split; [exact Hread|]. split; [exact Hs|]. apply Hok. reflexivity.
Defined.

(** C10 at a concrete input: a patch body of blanks and newlines only. *)
Lemma apply_patch_empty_patch_example :
  let w := one_file main_c main_body in
  let c := [32%N; NL; 9%N] in
  let w' := after (apply_patch normal_path main_c c) w in
  returns (read_text (normal_path main_c)) w = Ret main_body
  ∧ strip c = []
  ∧ returns (apply_patch normal_path main_c c) w = Ret true
  ∧ writes w' = writes w
  ∧ fs w' = fs w.
Proof.
  intros w c w'.
  assert (Hread : returns (read_text (normal_path main_c)) w = Ret main_body)
    by reflexivity.
  assert (Hc : strip c = []) by reflexivity.
  split; [exact Hread|]. split; [exact Hc|].
  exact (apply_patch_empty_patch normal_path w main_c c main_body Hread Hc).
Defined.


(** A run of [main] over the table of the source when only the first of
    the two files is on disk: one entry of two succeeds, and the process
    exits with status 1. *)
Example main_one_of_two :
  let w := one_file (lit "libs/odpi/test/test_4500_sessionless_txn.c") main_body in
  last (stdout (after (main normal_path PATCHES) w))
    = Some (lit "Patching process complete. 1/2 files checked/patched successfully.")
  ∧ exit_status (returns (main normal_path PATCHES) w) = 1%Z.
Proof. by vm_compute. Qed.

(** ** Further properties at concrete inputs *)

(** X3 on the file and patch of the specification's scenario. *)
Lemma apply_patch_succeeds_iff_example :
  let w := one_file main_c main_body in
  returns (read_text (normal_path main_c)) w = Ret main_body
  ∧ returns (write_text (normal_path main_c)
               (strip foo_include ++ [NL; NL] ++ main_body)) w = Ret tt
  ∧ returns (apply_patch normal_path main_c foo_include) w = Ret true.
Proof.
  intros w.
  assert (Hread : returns (read_text (normal_path main_c)) w = Ret main_body)
    by reflexivity.
  assert (Hw : returns (write_text (normal_path main_c)
                          (strip foo_include ++ [NL; NL] ++ main_body)) w = Ret tt)
    by reflexivity.
  split; [exact Hread|]. split; [exact Hw|].
  apply (apply_patch_succeeds_iff normal_path w main_c foo_include).
  exists main_body. split; [exact Hread|]. right. exact Hw.
Defined.

(** X5 on a file that cannot be opened for writing. *)
Lemma apply_patch_reports_exception_example :
  let w := read_only_file main_c main_body in
  is_Some (fs w !! normal_path main_c)
  ∧ returns (write_text (normal_path main_c)
               (strip foo_include ++ [NL; NL] ++ main_body)) w
    = Raise (OSError (lit "[Errno 13] Permission denied"))
  ∧ last (stdout (after (apply_patch normal_path main_c foo_include) w))
    = Some (lit "ERROR: Failed to patch file main.c: [Errno 13] Permission denied").
Proof.
  intros w.
  assert (Hfs : is_Some (fs w !! normal_path main_c)) by (eexists; reflexivity).
  assert (Hw : returns (write_text (normal_path main_c)
                          (strip foo_include ++ [NL; NL] ++ main_body)) w
               = Raise (OSError (lit "[Errno 13] Permission denied")))
    by reflexivity.
  split; [exact Hfs|]. split; [exact Hw|].
  refine (apply_patch_reports_exception normal_path w main_c foo_include
            (OSError (lit "[Errno 13] Permission denied")) Hfs _).
  right. exists main_body. split; [reflexivity|]. split; [reflexivity|exact Hw].
Defined.

(** X6 on the patch body of the specification's second scenario. *)
Lemma apply_patch_ignores_surrounding_whitespace_example :
  let w := one_file main_c main_body in
  forallb isspace [NL; 32%N; 32%N] = true
  ∧ forallb isspace [32%N; 32%N; NL] = true
  ∧ apply_patch normal_path main_c
      ([NL; 32%N; 32%N] ++ lit "#include <bar.h>" ++ [32%N; 32%N; NL]) w
    = apply_patch normal_path main_c (lit "#include <bar.h>") w.
Proof.
  intros w. split; [reflexivity|]. split; [reflexivity|].
  apply (apply_patch_ignores_surrounding_whitespace normal_path w main_c);
    reflexivity.
Defined.




Lemma bfile_entry_in_PATCHES : (bfile_c, table_patch 1) ∈ PATCHES.
Proof. apply elem_of_cons. right. apply elem_of_cons. left. reflexivity. Defined.

(** X9 on a tree where both files of the table begin with their patch. *)
Lemma main_in_place_example :
  let w' := after (main normal_path PATCHES) patched_tree in
  in_place normal_path PATCHES patched_tree
  ∧ returns (main normal_path PATCHES) patched_tree = Ret tt
  ∧ fs w' = fs patched_tree
  ∧ writes w' = writes patched_tree
  ∧ last (stdout w')
    = Some (lit "Patching process complete. 2/2 files checked/patched successfully.").
Proof.
  intros w'.
  assert (H : in_place normal_path PATCHES patched_tree).
  { intros p c Hin.
    apply elem_of_cons in Hin as [Hin|Hin]; [|apply elem_of_cons in Hin as [Hin|Hin]].
    - injection Hin as -> ->. eexists. split; vm_compute; reflexivity.
    - injection Hin as -> ->. eexists. split; vm_compute; reflexivity.
    - by apply elem_of_nil in Hin. }
  split; [exact H|].
  exact (main_in_place normal_path PATCHES patched_tree H).
Defined.



(** X12 on a tree where the second file of the table is missing. *)
Lemma main_missing_file_example :
  let w := one_file txn_c main_body in
  fs w !! normal_path bfile_c = None
  ∧ exit_status (returns (main normal_path PATCHES) w) = 1%Z
  ∧ fs (after (main normal_path PATCHES) w) !! normal_path bfile_c = None.
Proof.
  intros w.
  assert (H : fs w !! normal_path bfile_c = None) by (vm_compute; reflexivity).
  split; [exact H|].
  exact (main_missing_file normal_path PATCHES w bfile_c (table_patch 1)
           bfile_entry_in_PATCHES H).
Defined.



